(** * alarm_mutex2.c: the single alarm thread and its sorted request list

    A shallow embedding of [alarm_thread] and [main] of
    [src/alarm_mutex2.c].  The linked list hanging off [alarm_list] is a
    Rocq list of [alarm_t] records (the [link] field is the list spine);
    [int] and [time_t] values are integers with their wrap-around written
    out; what the two loops read from their environment (the clock, the
    results of the mutex calls, the input line, the allocator) is passed in
    explicitly, and what they do to the outside is returned as a list of
    events.  The file closes with a second, partial [main] (lines 159-189),
    an excerpt of the same loop with most of its body left out; the [main]
    embedded here is the complete one of lines 90-157. *)

From Stdlib Require Import ZArith List Bool Ascii String Lia Sorted Permutation.
Import ListNotations.
Local Open Scope Z_scope.

(** ** Machine integers *)

Module CInt.

(** Two's complement reading of [x] on [bits] bits. *)
Definition wrap_signed (bits x : Z) : Z :=
  (x + 2 ^ (bits - 1)) mod 2 ^ bits - 2 ^ (bits - 1).

Definition INT_MIN : Z := - 2 ^ 31.
Definition INT_MAX : Z := 2 ^ 31 - 1.
Definition LONG_MIN : Z := - 2 ^ 63.
Definition LONG_MAX : Z := 2 ^ 63 - 1.

(** [int] is 32 bits wide, [time_t] and [long] are 64 bits wide. *)
Definition to_int : Z -> Z := wrap_signed 32.
Definition to_time_t : Z -> Z := wrap_signed 64.

Definition clamp_long (x : Z) : Z := Z.max LONG_MIN (Z.min LONG_MAX x).

End CInt.

(** ** The alarm structure and the shared list *)

(** [struct alarm_tag]: [seconds] is an [int], [time] a [time_t], [message]
    the text held in the [char message[64]] array, without the NUL that
    ends it. *)
Record alarm_t : Type := mk_alarm {
  seconds : Z;
  time : Z;
  message : string
}.

Definition set_seconds (n : Z) (a : alarm_t) : alarm_t :=
  mk_alarm n (time a) (message a).
Definition set_time (t : Z) (a : alarm_t) : alarm_t :=
  mk_alarm (seconds a) t (message a).
Definition set_message (m : string) (a : alarm_t) : alarm_t :=
  mk_alarm (seconds a) (time a) m.

(** The size of the [message] array, the last member of the structure. *)
Definition MESSAGE_SIZE : nat := 64.

(** ** What the program does to the outside world *)

Inductive event : Type :=
| Printf (args : list string)
| Fprintf_stderr (text : string)
| Sleep (n : Z)
| Sched_yield
| Free (a : alarm_t).

(** How one pass through a loop body ends: the loop goes on, the process
    aborts with a diagnostic, the process exits, or a call has written
    [written] bytes into the [message] array, more than it holds, after
    which the program has no defined behaviour. *)
Inductive outcome (A : Type) : Type :=
| Running (a : A)
| Aborted (code : Z) (text : string)
| Exited (code : Z)
| Overrun (written : nat).
Arguments Running {A} a.
Arguments Aborted {A} code text.
Arguments Exited {A} code.
Arguments Overrun {A} written.

Definition bind {A B : Type} (c : outcome A) (k : A -> outcome B) : outcome B :=
  match c with
  | Running a => k a
  | Aborted code text => Aborted code text
  | Exited code => Exited code
  | Overrun written => Overrun written
  end.

Notation "x <- c ;; k" := (bind c (fun x => k))
  (at level 61, c at next level, right associativity).
Notation "c ;;; k" := (bind c (fun _ => k))
  (at level 61, right associativity).

(** Modelled from the spec: [err_abort] and [errno_abort] come from
    [errors.h], which is not part of the sources at hand.  A failed
    operation aborts the process with a diagnostic that carries the error
    code and the text naming the operation. *)
Definition err_abort {A : Type} (code : Z) (text : string) : outcome A :=
  Aborted code text.
Definition errno_abort {A : Type} (errno : Z) (text : string) : outcome A :=
  Aborted errno text.

(** [if (status != 0) err_abort (status, text);] *)
Definition check_status (status : Z) (text : string) : outcome unit :=
  if status =? 0 then Running tt else err_abort status text.

(** ** The alarm thread *)

(** The locals of [alarm_thread] that live across iterations.  The source
    assigns to [sleet_time] in the empty-list branch, a name distinct from
    [sleep_time]. *)
Record thread_locals : Type := mk_locals {
  sleep_time : Z;
  sleet_time : Z
}.

(** What one iteration of the thread reads from outside. *)
Record thread_env : Type := mk_thread_env {
  t_lock_status : Z;
  t_clock : Z;
  t_unlock_status : Z
}.

(** Lines 46-63, the part run with the mutex held: look at the head of the
    list, unlink it when there is one, and set the time to wait. *)
Definition take_head (clock : Z) (loc : thread_locals) (alarm_list : list alarm_t)
  : option alarm_t * thread_locals * list alarm_t :=
  match alarm_list with
  | [] =>
      (None, mk_locals (sleep_time loc) 1, [])
  | alarm :: link =>
      let now := clock in
      let st :=
        if time alarm <=? now then 0
        else CInt.to_int (CInt.to_time_t (now - time alarm)) in
      (Some alarm, mk_locals st (sleet_time loc), link)
  end.

(** Lines 74-77. *)
Definition wait_events (loc : thread_locals) : list event :=
  if sleep_time loc >? 0 then [Sleep (sleep_time loc)] else [Sched_yield].

(** Lines 80-84. *)
Definition fire_events (alarm : option alarm_t) : list event :=
  match alarm with
  | Some a => [Printf []; Free a]
  | None => []
  end.

(** One pass through the body of the [while (1)] of [alarm_thread]. *)
Definition alarm_thread_iter (env : thread_env) (loc : thread_locals)
    (alarm_list : list alarm_t)
  : outcome (thread_locals * list alarm_t * list event) :=
  check_status (t_lock_status env) "Lock mutex" ;;;
  let '(alarm, loc', alarm_list') := take_head (t_clock env) loc alarm_list in
  check_status (t_unlock_status env) "unlock mutex" ;;;
  Running (loc', alarm_list', wait_events loc' ++ fire_events alarm).

(** Several passes in a row, one environment per pass; the events are
    collected in order. *)
Fixpoint alarm_thread_run (envs : list thread_env) (loc : thread_locals)
    (alarm_list : list alarm_t)
  : outcome (thread_locals * list alarm_t * list event) :=
  match envs with
  | [] => Running (loc, alarm_list, [])
  | env :: envs' =>
      r <- alarm_thread_iter env loc alarm_list ;;
      let '(loc1, list1, ev1) := r in
      r' <- alarm_thread_run envs' loc1 list1 ;;
      let '(loc2, list2, ev2) := r' in
      Running (loc2, list2, ev1 ++ ev2)
  end.

(** ** Insertion into the list *)

(** Lines 132-151: walk the list from its head; link the new alarm in
    front of the first entry whose time is at or after the new one's, or at
    the end when there is none. *)
Fixpoint insert_alarm (alarm : alarm_t) (next : list alarm_t) : list alarm_t :=
  match next with
  | [] => [alarm]
  | n :: link =>
      if time n >=? time alarm then alarm :: n :: link
      else n :: insert_alarm alarm link
  end.

(** ** The C library calls on the input line *)

Module Scanf.

Definition code (c : ascii) : Z := Z.of_N (N_of_ascii c).

(** [isspace] in the C locale: space, and tab to carriage return. *)
Definition isspace (c : ascii) : bool :=
  (code c =? 32) || ((9 <=? code c) && (code c <=? 13)).
Definition isdigit (c : ascii) : bool :=
  (48 <=? code c) && (code c <=? 57).
Definition is_newline (c : ascii) : bool := code c =? 10.
Definition is_nul (c : ascii) : bool := code c =? 0.

(** The C string held in a buffer: the characters before the first NUL. *)
Fixpoint cstr (s : string) : string :=
  match s with
  | EmptyString => EmptyString
  | String c r => if is_nul c then EmptyString else String c (cstr r)
  end.

Definition strlen (s : string) : nat := String.length (cstr s).

(** White space in a format, and the white space skipped by [%d]. *)
Fixpoint skip_space (s : string) : string :=
  match s with
  | EmptyString => EmptyString
  | String c r => if isspace c then skip_space r else s
  end.

(** The decimal digits at the front of [s], read onto [acc]. *)
Fixpoint scan_digits (acc : Z) (s : string) : Z * string :=
  match s with
  | EmptyString => (acc, EmptyString)
  | String c r =>
      if isdigit c then scan_digits (10 * acc + (code c - 48)) r
      else (acc, s)
  end.

Inductive conversion (A : Type) : Type :=
| Converted (v : A) (rest : string)
| Match_failure
| Input_failure.
Arguments Converted {A} v rest.
Arguments Match_failure {A}.
Arguments Input_failure {A}.

Definition starts_with_digit (s : string) : bool :=
  match s with
  | EmptyString => false
  | String c _ => isdigit c
  end.

(** [%d]: skip white space, take an optional sign and at least one
    digit.  The value goes through [strtol] (saturating at the range of
    [long]) and is then stored in an [int]. *)
Definition conv_d (s : string) : conversion Z :=
  match skip_space s with
  | EmptyString => Input_failure
  | String c r =>
      let '(negative, body) :=
        if code c =? 45 then (true, r)
        else if code c =? 43 then (false, r)
        else (false, String c r) in
      if starts_with_digit body then
        let '(v, rest) := scan_digits 0 body in
        Converted (CInt.to_int (CInt.clamp_long (if negative then - v else v))) rest
      else Match_failure
  end.

(** The characters a [%N[^\n]] takes: at most [width] of them, up to the
    first newline. *)
Fixpoint scan_not_newline (width : nat) (s : string) : string * string :=
  match width, s with
  | S w, String c r =>
      if is_newline c then (EmptyString, s)
      else let '(m, rest) := scan_not_newline w r in (String c m, rest)
  | _, _ => (EmptyString, s)
  end.

(** [%N[^\n]]: no white space is skipped, and at least one character has
    to match. *)
Definition conv_not_newline (width : nat) (s : string) : conversion string :=
  match s with
  | EmptyString => Input_failure
  | String c _ =>
      if is_newline c then Match_failure
      else let '(m, rest) := scan_not_newline width s in Converted m rest
  end.

Definition EOF : Z := -1.

End Scanf.

(** [sscanf (line, "%d %64[^\n]", &alarm->seconds, alarm->message)]: the
    number of conversions stored (or [EOF]), the structure as the call
    leaves it, and the number of bytes the call writes from
    [alarm->message] on.  A stored [%64[^\n]] writes the characters it has
    matched, up to 64 of them, and a NUL after them: up to 65 bytes, into
    an array of [MESSAGE_SIZE]. *)
Definition sscanf_alarm (line : string) (alarm : alarm_t) : Z * alarm_t * nat :=
  match Scanf.conv_d (Scanf.cstr line) with
  | Scanf.Input_failure => (Scanf.EOF, alarm, 0%nat)
  | Scanf.Match_failure => (0, alarm, 0%nat)
  | Scanf.Converted n rest =>
      let alarm1 := set_seconds n alarm in
      match Scanf.conv_not_newline 64 (Scanf.skip_space rest) with
      | Scanf.Converted m _ => (2, set_message m alarm1, S (String.length m))
      | _ => (1, alarm1, 0%nat)
      end
  end.

(** The three parts of what the call yields. *)
Definition conversions (r : Z * alarm_t * nat) : Z := fst (fst r).
Definition stored (r : Z * alarm_t * nat) : alarm_t := snd (fst r).
Definition bytes_written (r : Z * alarm_t * nat) : nat := snd r.

(** ** The main thread *)

(** What one iteration of [main] reads from outside: the line [fgets]
    delivers ([None] at end of input), the block [malloc] returns ([None]
    for [NULL], otherwise its indeterminate contents), [errno], the results
    of the two mutex calls and the clock. *)
Record main_env : Type := mk_main_env {
  fgets_result : option string;
  malloc_result : option alarm_t;
  errno : Z;
  m_lock_status : Z;
  m_clock : Z;
  m_unlock_status : Z
}.

Definition newline : string := String "010" EmptyString.
Definition prompt : event := Printf ["alarm> "%string].
Definition bad_command : event := Fprintf_stderr ("bad command" ++ newline).

(** One pass through the body of the [while (1)] of [main] (lines
    103-155).  When the [sscanf] call of line 118 writes more bytes than
    the [message] array holds, the last of them lands past the end of the
    array, which is also the end of the block [malloc] returned: the pass
    ends there, in [Overrun].  The result of [pthread_mutex_unlock] on line
    153 is not looked at. *)
Definition main_iter (env : main_env) (alarm_list : list alarm_t)
  : outcome (list alarm_t * list event) :=
  match fgets_result env with
  | None => Exited 0
  | Some line =>
      if (Scanf.strlen line <=? 1)%nat then Running (alarm_list, [prompt])
      else
        match malloc_result env with
        | None => errno_abort (errno env) "allocate alarm"
        | Some block =>
            let '(n, alarm, written) := sscanf_alarm line block in
            if (MESSAGE_SIZE <? written)%nat then Overrun written
            else if n <? 2 then
              Running (alarm_list, [prompt; bad_command; Free alarm])
            else
              check_status (m_lock_status env) "failed to lock mutex" ;;;
              let alarm := set_time (CInt.to_time_t (m_clock env + seconds alarm)) alarm in
              Running (insert_alarm alarm alarm_list, [prompt])
        end
  end.

(** ** Notions used to state the properties *)

(** The order of the list: by absolute expiration time. *)
Definition by_time (a b : alarm_t) : Prop := time a <= time b.

Definition sorted_by_time (l : list alarm_t) : Prop := Sorted by_time l.

(** The same as a test that computes. *)
Fixpoint sortedb (l : list alarm_t) : bool :=
  match l with
  | [] => true
  | a :: rest =>
      match rest with
      | [] => true
      | b :: _ => (time a <=? time b) && sortedb rest
      end
  end.

(** The new alarm sits between [pre] and [post] of the old list. *)
Definition inserted_between (alarm : alarm_t) (old pre post : list alarm_t) : Prop :=
  old = pre ++ post /\ insert_alarm alarm old = pre ++ alarm :: post.

(** "Immediately before the first existing entry whose time is not earlier":
    everything in front is strictly earlier, and what follows, if anything,
    is not earlier. *)
Definition before_first_not_earlier (alarm : alarm_t) (pre post : list alarm_t) : Prop :=
  Forall (fun e => time e < time alarm) pre /\
  match post with
  | [] => True
  | n :: _ => time alarm <= time n
  end.

(** "After the existing entries of equal time": none of them follows the
    new alarm. *)
Definition after_equal_times (alarm : alarm_t) (post : list alarm_t) : Prop :=
  Forall (fun e => time e <> time alarm) post.

(** "Before the existing entries of equal time": none of them precedes the
    new alarm. *)
Definition before_equal_times (alarm : alarm_t) (pre : list alarm_t) : Prop :=
  Forall (fun e => time e <> time alarm) pre.

(** The text of a line up to its newline. *)
Fixpoint up_to_newline (s : string) : string :=
  match s with
  | EmptyString => EmptyString
  | String c r => if Scanf.is_newline c then EmptyString else String c (up_to_newline r)
  end.

(** A line made of white space only. *)
Fixpoint all_space (s : string) : bool :=
  match s with
  | EmptyString => true
  | String c r => Scanf.isspace c && all_space r
  end.

(** A line is reported as bad when the pass goes on with the list as it
    was and "bad command" among its output. *)
Definition reports_bad_command (env : main_env) (alarm_list : list alarm_t) : Prop :=
  exists events,
    main_iter env alarm_list = Running (alarm_list, events) /\ In bad_command events.

(** A line is a no-op when the pass goes on with the list as it was and
    nothing but the next prompt is written. *)
Definition is_no_op (env : main_env) (alarm_list : list alarm_t) : Prop :=
  main_iter env alarm_list = Running (alarm_list, [prompt]).

(** An environment in which every call succeeds, for a given line and
    clock reading. *)
Definition blank : alarm_t := mk_alarm 0 0 EmptyString.
Definition env_line (line : string) (now : Z) : main_env :=
  mk_main_env (Some line) (Some blank) 0 0 now 0.
Definition env_ok (now : Z) : thread_env := mk_thread_env 0 now 0.

(** A text of seventy characters. *)
Definition seventy : string :=
  "0123456789012345678901234567890123456789012345678901234567890123456789".

(** ** The two loops on the shared list *)

(** The list is only touched with the mutex held, once per pass of either
    loop, so what happens to it is some interleaving of passes of [main]
    and passes of [alarm_thread]. *)
Inductive pass : Type :=
| Main_pass (env : main_env)
| Thread_pass (env : thread_env).

(** The locals of the alarm thread, the shared list, and what each of the
    two threads has done to the outside so far. *)
Record program_state : Type := mk_state {
  st_locals : thread_locals;
  st_list : list alarm_t;
  main_log : list event;
  thread_log : list event
}.

Definition run_pass (p : pass) (st : program_state) : outcome program_state :=
  match p with
  | Main_pass env =>
      r <- main_iter env (st_list st) ;;
      let '(q, ev) := r in
      Running (mk_state (st_locals st) q (main_log st ++ ev) (thread_log st))
  | Thread_pass env =>
      r <- alarm_thread_iter env (st_locals st) (st_list st) ;;
      let '(loc, q, ev) := r in
      Running (mk_state loc q (main_log st) (thread_log st ++ ev))
  end.

Fixpoint run_passes (ps : list pass) (st : program_state) : outcome program_state :=
  match ps with
  | [] => Running st
  | p :: ps' => st1 <- run_pass p st ;; run_passes ps' st1
  end.

(** [main] from its start: the thread is created (lines 97-99) and the two
    loops run on a list that starts empty (line 32); [loc0] stands for the
    indeterminate first values of the thread's locals. *)
Definition program (create_status : Z) (loc0 : thread_locals) (ps : list pass)
  : outcome program_state :=
  check_status create_status "failed to create thread" ;;;
  run_passes ps (mk_state loc0 [] [] []).

(** The alarms handed to [free] in a log, in order. *)
Fixpoint freed (events : list event) : list alarm_t :=
  match events with
  | [] => []
  | Free a :: rest => a :: freed rest
  | _ :: rest => freed rest
  end.

(** The calls to [sleep] in a log. *)
Fixpoint slept (events : list event) : list Z :=
  match events with
  | [] => []
  | Sleep n :: rest => n :: slept rest
  | _ :: rest => slept rest
  end.

(** What a pass of [main] links into the list: what it makes of an empty
    one. *)
Definition inserted_by (env : main_env) : list alarm_t :=
  match main_iter env [] with
  | Running (q, _) => q
  | _ => []
  end.

Definition submitted (ps : list pass) : list alarm_t :=
  flat_map (fun p => match p with
                     | Main_pass env => inserted_by env
                     | Thread_pass _ => []
                     end) ps.

(** A pass of the thread in which both mutex calls succeed. *)
Definition mutex_ok (env : thread_env) : Prop :=
  t_lock_status env = 0 /\ t_unlock_status env = 0.

(** The clock reading a pass is handed. *)
Definition pass_clock (p : pass) : Z :=
  match p with
  | Main_pass env => m_clock env
  | Thread_pass env => t_clock env
  end.

(** The clock does not run backwards from one pass to the next, and its
    readings are far enough from the ends of [time_t] for a delay to be
    added to them. *)
Definition clock_steady (ps : list pass) : Prop :=
  StronglySorted Z.le (map pass_clock ps) /\
  Forall (fun p => 0 <= pass_clock p <= CInt.LONG_MAX - CInt.INT_MAX) ps.

(** Two lines submitted at clock 100, then a pass of the thread at 101,
    then a malformed line. *)
Definition example_passes : list pass :=
  [Main_pass (env_line ("5 five" ++ newline) 100);
   Main_pass (env_line ("2 two" ++ newline) 100);
   Thread_pass (env_ok 101);
   Main_pass (env_line ("abc" ++ newline) 102)].

(** ** Notions on the characters of a line *)

Fixpoint str_all (P : ascii -> Prop) (s : string) : Prop :=
  match s with
  | EmptyString => True
  | String c r => P c /\ str_all P r
  end.

Definition not_nul (c : ascii) : Prop := Scanf.is_nul c = false.
Definition not_newline (c : ascii) : Prop := Scanf.is_newline c = false.

Definition starts_with_space (s : string) : bool :=
  match s with
  | EmptyString => false
  | String c _ => Scanf.isspace c
  end.





(** * Facts *)

(** ** Machine integers *)

Lemma wrap_signed_id bits x :
  0 < bits -> - 2 ^ (bits - 1) <= x < 2 ^ (bits - 1) -> CInt.wrap_signed bits x = x.
Proof.
  intros Hb Hx. unfold CInt.wrap_signed.
  assert (E : 2 ^ bits = 2 * 2 ^ (bits - 1)).
  { replace bits with (Z.succ (bits - 1)) at 1 by lia.
    rewrite Z.pow_succ_r by lia. reflexivity. }
  rewrite Z.mod_small by lia. lia.
Qed.

Lemma to_int_id x : CInt.INT_MIN <= x <= CInt.INT_MAX -> CInt.to_int x = x.
Proof.
  unfold CInt.INT_MIN, CInt.INT_MAX, CInt.to_int. intros H.
  apply wrap_signed_id; [lia | ]. change (32 - 1) with 31. lia.
Qed.

Lemma to_time_t_id x : CInt.LONG_MIN <= x <= CInt.LONG_MAX -> CInt.to_time_t x = x.
Proof.
  unfold CInt.LONG_MIN, CInt.LONG_MAX, CInt.to_time_t. intros H.
  apply wrap_signed_id; [lia | ]. change (64 - 1) with 63. lia.
Qed.

Lemma to_int_range x : CInt.INT_MIN <= CInt.to_int x <= CInt.INT_MAX.
Proof.
  unfold CInt.to_int, CInt.wrap_signed, CInt.INT_MIN, CInt.INT_MAX.
  change (32 - 1) with 31.
  assert (H : 0 <= (x + 2 ^ 31) mod 2 ^ 32 < 2 ^ 32)
    by (apply Z.mod_pos_bound; lia).
  change (2 ^ 32) with (2 * 2 ^ 31) in *. lia.
Qed.

(** ** The order of the list *)

#[local] Instance by_time_trans : RelationClasses.Transitive by_time.
Proof. unfold by_time. intros a b c Hab Hbc. lia. Qed.

Lemma sortedb_spec l : sortedb l = true <-> sorted_by_time l.
Proof.
  unfold sorted_by_time. induction l as [| a [| b rest] IH].
  - split; [constructor | reflexivity].
  - split; [repeat constructor | reflexivity].
  - change (sortedb (a :: b :: rest))
      with ((time a <=? time b) && sortedb (b :: rest)).
    rewrite andb_true_iff, Z.leb_le, IH. split.
    + intros [Hab Hs]. constructor; [exact Hs | constructor; exact Hab].
    + intros Hs. inversion Hs as [| ? ? Hs' Hhd]; subst.
      inversion Hhd; subst. split; assumption.
Qed.

Lemma sorted_head_earliest a rest :
  sorted_by_time (a :: rest) -> Forall (by_time a) rest.
Proof.
  intros Hs. apply Sorted_extends; [exact by_time_trans | exact Hs].
Qed.

Lemma insert_alarm_hd alarm a l :
  by_time a alarm -> HdRel by_time a l -> HdRel by_time a (insert_alarm alarm l).
Proof.
  intros Ha Hl. destruct l as [| n link]; simpl.
  - constructor. exact Ha.
  - destruct (time n >=? time alarm); constructor.
    + exact Ha.
    + inversion Hl; assumption.
Qed.

Lemma insert_alarm_sorted alarm l :
  sorted_by_time l -> sorted_by_time (insert_alarm alarm l).
Proof.
  unfold sorted_by_time. induction l as [| n link IH]; intros Hs; simpl.
  - repeat constructor.
  - destruct (Z.geb_spec (time n) (time alarm)) as [Hge | Hlt].
    + constructor; [exact Hs | constructor; unfold by_time; lia].
    + inversion Hs as [| ? ? Hs' Hhd]; subst.
      constructor; [apply IH; exact Hs' | ].
      apply insert_alarm_hd; [unfold by_time; lia | exact Hhd].
Qed.

Lemma insert_alarm_perm alarm l : Permutation (alarm :: l) (insert_alarm alarm l).
Proof.
  induction l as [| n link IH]; simpl.
  - apply Permutation_refl.
  - destruct (time n >=? time alarm).
    + apply Permutation_refl.
    + eapply perm_trans; [apply perm_swap | apply perm_skip; exact IH].
Qed.

Lemma insert_alarm_split alarm l :
  exists pre post,
    inserted_between alarm l pre post /\ before_first_not_earlier alarm pre post.
Proof.
  unfold inserted_between, before_first_not_earlier.
  induction l as [| n link IH]; simpl.
  - exists [], []. repeat split; constructor.
  - destruct (Z.geb_spec (time n) (time alarm)) as [Hge | Hlt].
    + exists [], (n :: link). repeat split; [constructor | lia].
    + destruct IH as (pre & post & [Hq Hi] & [Hpre Hpost]).
      exists (n :: pre), post. simpl. rewrite <- Hq, Hi.
      repeat split; [constructor; [lia | exact Hpre] | exact Hpost].
Qed.

(** ** Insertion *)

(** C2, as amended: for every list and every new alarm, [insert_alarm]
    puts the new alarm immediately before the first existing entry whose
    time is not earlier than its own (at the end when there is none); every
    entry in front of it is strictly earlier, so the existing entries of
    equal time all come after the new alarm: among equal times the newest
    comes first. *)
Theorem insert_alarm_before_first_not_earlier (alarm : alarm_t) (q : list alarm_t) :
  exists pre post,
    inserted_between alarm q pre post /\
    before_first_not_earlier alarm pre post /\
    before_equal_times alarm pre.
Proof.
  destruct (insert_alarm_split alarm q) as (pre & post & Hi & Hb).
  exists pre, post. repeat split; try apply Hi; try apply Hb.
  unfold before_equal_times. destruct Hb as [Hpre _].
  apply (Forall_impl _ (P := fun e => time e < time alarm)); [ | exact Hpre].
  intros e He. lia.
Qed.

(** C2, as stated, fails: with one entry of time 105 in the list, a new
    alarm of time 105 is linked in front of it, so no way of cutting the
    list around the new alarm leaves the old entry of equal time ahead of
    it. *)
Lemma insert_alarm_equal_time_not_after :
  insert_alarm (mk_alarm 5 105 "new") [mk_alarm 5 105 "old"]
    = [mk_alarm 5 105 "new"; mk_alarm 5 105 "old"] /\
  ~ (exists pre post,
       inserted_between (mk_alarm 5 105 "new") [mk_alarm 5 105 "old"] pre post /\
       before_first_not_earlier (mk_alarm 5 105 "new") pre post /\
       after_equal_times (mk_alarm 5 105 "new") post).
Proof.
  split; [reflexivity | ].
  intros (pre & post & [Hq Hi] & _ & Hafter).
  destruct pre as [| x pre'].
  - simpl in Hq. subst post. inversion Hafter as [| ? ? Hne _]; subst.
    apply Hne. reflexivity.
  - simpl in Hq, Hi. inversion Hq as [[Hx Hrest]]. inversion Hi as [[Hx' Hrest']].
    rewrite <- Hx in Hx'. discriminate Hx'.
Qed.

(** C3: inserting into a list sorted by time gives a list sorted by time
    that holds exactly the old entries and the new one. *)
Theorem insert_alarm_keeps_sorted_and_entries (alarm : alarm_t) (q : list alarm_t) :
  sorted_by_time q ->
  sorted_by_time (insert_alarm alarm q) /\
  Permutation (alarm :: q) (insert_alarm alarm q).
Proof.
  intros Hs. split.
  - apply insert_alarm_sorted. exact Hs.
  - apply insert_alarm_perm.
Qed.

Lemma insert_alarm_keeps_sorted_and_entries_witness :
  sorted_by_time [mk_alarm 2 102 "two"; mk_alarm 5 105 "five"; mk_alarm 9 109 "nine"] /\
  sorted_by_time
    (insert_alarm (mk_alarm 5 105 "new")
       [mk_alarm 2 102 "two"; mk_alarm 5 105 "five"; mk_alarm 9 109 "nine"]) /\
  Permutation
    (mk_alarm 5 105 "new"
       :: [mk_alarm 2 102 "two"; mk_alarm 5 105 "five"; mk_alarm 9 109 "nine"])
    (insert_alarm (mk_alarm 5 105 "new")
       [mk_alarm 2 102 "two"; mk_alarm 5 105 "five"; mk_alarm 9 109 "nine"]).
Proof.
  assert (Hs : sorted_by_time
    [mk_alarm 2 102 "two"; mk_alarm 5 105 "five"; mk_alarm 9 109 "nine"])
    by (apply sortedb_spec; reflexivity).
  split; [exact Hs | ].
  apply (insert_alarm_keeps_sorted_and_entries (mk_alarm 5 105 "new") _ Hs).
Defined.

(** ** The alarm thread *)

Lemma take_head_cons clock loc a rest :
  take_head clock loc (a :: rest) =
    (Some a,
     mk_locals (if time a <=? clock then 0
                else CInt.to_int (CInt.to_time_t (clock - time a)))
               (sleet_time loc),
     rest).
Proof. reflexivity. Qed.


(** For a head that is not yet due the difference is taken the wrong way
    round: the time to wait comes out negative. *)
Lemma take_head_not_due clock loc a rest :
  clock < time a -> CInt.INT_MIN <= clock - time a ->
  take_head clock loc (a :: rest) =
    (Some a, mk_locals (clock - time a) (sleet_time loc), rest).
Proof.
  intros H Hr. rewrite take_head_cons.
  destruct (Z.leb_spec (time a) clock); [lia | ].
  rewrite to_time_t_id, to_int_id; [reflexivity | | ];
    unfold CInt.INT_MIN, CInt.INT_MAX, CInt.LONG_MIN, CInt.LONG_MAX in *; lia.
Qed.

Lemma alarm_thread_iter_ok clock loc q :
  alarm_thread_iter (env_ok clock) loc q =
    let '(alarm, loc', q') := take_head clock loc q in
    Running (loc', q', wait_events loc' ++ fire_events alarm).
Proof.
  unfold alarm_thread_iter, env_ok. simpl.
  destruct (take_head clock loc q) as [[alarm loc'] q']. reflexivity.
Qed.

(** C1: with the head due at 105 and the clock at 100 the claim asks for a
    wait of [max 0 (105 - 100) = 5]; the thread computes [100 - 105 = -5],
    does not sleep, and prints and frees the alarm five seconds early. *)
Theorem take_head_wait_not_due :
  Z.max 0 (time (mk_alarm 5 105 "five") - 100) = 5 /\
  take_head 100 (mk_locals 0 0) [mk_alarm 5 105 "five"]
    = (Some (mk_alarm 5 105 "five"), mk_locals (-5) 0, []) /\
  alarm_thread_iter (env_ok 100) (mk_locals 0 0) [mk_alarm 5 105 "five"]
    = Running (mk_locals (-5) 0, [],
               [Sched_yield; Printf []; Free (mk_alarm 5 105 "five")]).
Proof. repeat split. Qed.

(** C4: whatever the clock says, the thread unlinks the head of a
    non-empty list and keeps it for itself (it is the one to print and free
    it), leaving the rest as the list; when the list was sorted by time the
    entry taken is the earliest of the list as it stood. *)
Theorem take_head_unconditional (clock : Z) (loc : thread_locals)
    (a : alarm_t) (rest : list alarm_t) :
  fst (fst (take_head clock loc (a :: rest))) = Some a /\
  snd (take_head clock loc (a :: rest)) = rest /\
  (exists loc',
     alarm_thread_iter (env_ok clock) loc (a :: rest)
       = Running (loc', rest, wait_events loc' ++ [Printf []; Free a])) /\
  (sorted_by_time (a :: rest) -> Forall (by_time a) rest).
Proof.
  repeat split.
  - rewrite alarm_thread_iter_ok, take_head_cons. eexists. reflexivity.
  - apply sorted_head_earliest.
Qed.

Lemma take_head_unconditional_witness :
  sorted_by_time [mk_alarm 9 109 "nine"; mk_alarm 9 120 "late"] /\
  snd (take_head 100 (mk_locals 0 0)
         [mk_alarm 9 109 "nine"; mk_alarm 9 120 "late"])
    = [mk_alarm 9 120 "late"] /\
  Forall (by_time (mk_alarm 9 109 "nine")) [mk_alarm 9 120 "late"].
Proof.
  assert (Hs : sorted_by_time [mk_alarm 9 109 "nine"; mk_alarm 9 120 "late"])
    by (apply sortedb_spec; reflexivity).
  destruct (take_head_unconditional 100 (mk_locals 0 0)
              (mk_alarm 9 109 "nine") [mk_alarm 9 120 "late"])
    as (_ & H2 & _ & H4).
  split; [exact Hs | split; [exact H2 | exact (H4 Hs)]].
Defined.

(** On an empty list the pass leaves [sleep_time] as it found it. *)
Lemma alarm_thread_iter_empty clock loc :
  alarm_thread_iter (env_ok clock) loc []
    = Running (mk_locals (sleep_time loc) 1, [], wait_events loc).
Proof.
  rewrite alarm_thread_iter_ok. simpl. rewrite app_nil_r. reflexivity.
Qed.

(** C6: the empty-list branch sets [sleet_time], not [sleep_time].  A pass
    that finds the list empty with [sleep_time] at 0 yields instead of
    sleeping for one second; this is the state the thread is in right after
    it has fired a due alarm, as the two passes below show for any initial
    value of the locals. *)
Theorem alarm_thread_empty_list_no_sleep :
  alarm_thread_iter (env_ok 100) (mk_locals 0 0) []
    = Running (mk_locals 0 1, [], [Sched_yield]) /\
  (forall loc : thread_locals,
     alarm_thread_run [env_ok 100; env_ok 100] loc [mk_alarm 0 100 "go"]
       = Running (mk_locals 0 1, [],
                  [Sched_yield; Printf []; Free (mk_alarm 0 100 "go");
                   Sched_yield])).
Proof.
  split; [reflexivity | ].
  intros [st sl]. reflexivity.
Qed.

(** ** Reading the input line *)

Lemma skip_space_length s :
  (String.length (Scanf.skip_space s) <= String.length s)%nat.
Proof.
  induction s as [| c r IH]; simpl; [lia | ].
  destruct (Scanf.isspace c); simpl; lia.
Qed.

Lemma scan_digits_length s : forall acc,
  (String.length (snd (Scanf.scan_digits acc s)) <= String.length s)%nat.
Proof.
  induction s as [| c r IH]; intros acc; simpl; [lia | ].
  destruct (Scanf.isdigit c); simpl; [ | lia].
  specialize (IH (10 * acc + (Scanf.code c - 48))). apply Nat.le_le_succ_r, IH.
Qed.

Lemma scan_digits_consumes s acc :
  Scanf.starts_with_digit s = true ->
  (String.length (snd (Scanf.scan_digits acc s)) < String.length s)%nat.
Proof.
  destruct s as [| c r]; simpl; [discriminate | ].
  intros ->. apply Nat.lt_succ_r, scan_digits_length.
Qed.

(** A successful [%d] has consumed at least one character and stores a
    value of type [int]. *)
Lemma conv_d_converted s n rest :
  Scanf.conv_d s = Scanf.Converted n rest ->
  (String.length rest < String.length s)%nat /\ CInt.INT_MIN <= n <= CInt.INT_MAX.
Proof.
  unfold Scanf.conv_d. pose proof (skip_space_length s) as Hk.
  destruct (Scanf.skip_space s) as [| c r]; [discriminate | ].
  simpl in Hk.
  set (sb := if Scanf.code c =? 45 then (true, r)
             else if Scanf.code c =? 43 then (false, r)
             else (false, String c r)).
  assert (Hb : (String.length (snd sb) <= S (String.length r))%nat).
  { subst sb. destruct (Scanf.code c =? 45); [simpl; lia | ].
    destruct (Scanf.code c =? 43); simpl; lia. }
  destruct sb as [negative body]. simpl in Hb.
  destruct (Scanf.starts_with_digit body) eqn:Hd; [ | discriminate].
  pose proof (scan_digits_consumes body 0 Hd) as Hc.
  destruct (Scanf.scan_digits 0 body) as [v rest']. simpl in Hc.
  intros H. inversion H; subst. split; [lia | apply to_int_range].
Qed.

Lemma all_space_skip s : all_space s = true -> Scanf.skip_space s = EmptyString.
Proof.
  induction s as [| c r IH]; simpl; [reflexivity | ].
  destruct (Scanf.isspace c); simpl; [exact IH | discriminate].
Qed.

Lemma conv_d_all_space s : all_space s = true -> Scanf.conv_d s = Scanf.Input_failure.
Proof.
  intros H. unfold Scanf.conv_d. rewrite (all_space_skip s H). reflexivity.
Qed.

(** What [%N[^\n]] stores is the text up to the newline, cut after [N]
    characters. *)
Lemma scan_not_newline_substring width : forall s,
  fst (Scanf.scan_not_newline width s) = substring 0 width (up_to_newline s).
Proof.
  induction width as [| w IH]; intros [| c r]; simpl; try reflexivity.
  - destruct (Scanf.is_newline c); reflexivity.
  - destruct (Scanf.is_newline c); [reflexivity | ].
    specialize (IH r). destruct (Scanf.scan_not_newline w r) as [m rest].
    simpl in *. rewrite IH. reflexivity.
Qed.

Lemma conv_not_newline_text width s :
  (0 < String.length (up_to_newline s))%nat ->
  exists rest,
    Scanf.conv_not_newline width s
      = Scanf.Converted (substring 0 width (up_to_newline s)) rest.
Proof.
  intros H. unfold Scanf.conv_not_newline.
  destruct s as [| c r]; [simpl in H; lia | ].
  destruct (Scanf.is_newline c) eqn:Hc; [simpl in H; rewrite Hc in H; simpl in H; lia | ].
  pose proof (scan_not_newline_substring width (String c r)) as E.
  destruct (Scanf.scan_not_newline width (String c r)) as [m rest].
  simpl in E. exists rest. rewrite E. reflexivity.
Qed.

Lemma substring_length_le width : forall s,
  (width <= String.length s)%nat ->
  String.length (substring 0 width s) = width.
Proof.
  induction width as [| w IH]; intros [| c r] H; simpl in *; try reflexivity; try lia.
  rewrite IH by lia. reflexivity.
Qed.

Lemma up_to_newline_length s :
  (String.length (up_to_newline s) <= String.length s)%nat.
Proof.
  induction s as [| c r IH]; simpl; [lia | ].
  destruct (Scanf.is_newline c); simpl; lia.
Qed.

(** The return value of the [sscanf] call is one of [EOF], 0, 1 and 2. *)
Lemma sscanf_alarm_2 line block :
  conversions (sscanf_alarm line block) < 2 \/
  conversions (sscanf_alarm line block) = 2.
Proof.
  unfold sscanf_alarm, conversions.
  destruct (Scanf.conv_d (Scanf.cstr line)) as [n rest | | ];
    [ | left; simpl; lia | left; unfold Scanf.EOF; simpl; lia].
  destruct (Scanf.conv_not_newline 64 (Scanf.skip_space rest));
    simpl; auto; left; lia.
Qed.

(** Nothing is written to [message] unless both conversions are stored. *)
Lemma sscanf_alarm_unstored line block :
  conversions (sscanf_alarm line block) < 2 ->
  bytes_written (sscanf_alarm line block) = 0%nat.
Proof.
  unfold sscanf_alarm, conversions, bytes_written.
  destruct (Scanf.conv_d (Scanf.cstr line)) as [n rest | | ];
    [ | reflexivity | reflexivity].
  destruct (Scanf.conv_not_newline 64 (Scanf.skip_space rest));
    simpl; [lia | reflexivity | reflexivity].
Qed.

(** Two stored conversions need at least a digit and a character of
    message, and write the message and a NUL. *)
Lemma sscanf_alarm_2_strlen line block a written :
  sscanf_alarm line block = (2, a, written) ->
  (2 <= Scanf.strlen line)%nat /\ CInt.INT_MIN <= seconds a <= CInt.INT_MAX /\
  written = S (String.length (message a)).
Proof.
  unfold sscanf_alarm, Scanf.strlen.
  destruct (Scanf.conv_d (Scanf.cstr line)) as [n rest | | ] eqn:Hd;
    [ | discriminate | unfold Scanf.EOF; discriminate].
  destruct (conv_d_converted _ _ _ Hd) as [Hlen Hrange].
  pose proof (skip_space_length rest) as Hk.
  unfold Scanf.conv_not_newline.
  destruct (Scanf.skip_space rest) as [| c r] eqn:Hs; [discriminate | ].
  destruct (Scanf.is_newline c); [discriminate | ].
  destruct (Scanf.scan_not_newline 64 (String c r)) as [m rest'].
  intros H. inversion H; subst. simpl in *.
  split; [lia | split; [exact Hrange | reflexivity]].
Qed.

(** ** The main thread *)

Lemma main_iter_short env q line :
  fgets_result env = Some line -> (Scanf.strlen line <= 1)%nat ->
  main_iter env q = Running (q, [prompt]).
Proof.
  intros Hl Hs. unfold main_iter. rewrite Hl.
  destruct (Nat.leb_spec (Scanf.strlen line) 1); [reflexivity | lia].
Qed.

Lemma main_iter_not_scanned env q line block :
  fgets_result env = Some line -> (1 < Scanf.strlen line)%nat ->
  malloc_result env = Some block ->
  conversions (sscanf_alarm line block) < 2 ->
  main_iter env q
    = Running (q, [prompt; bad_command; Free (stored (sscanf_alarm line block))]).
Proof.
  intros Hl Hs Hm Hn. unfold main_iter. rewrite Hl, Hm.
  destruct (Nat.leb_spec (Scanf.strlen line) 1); [lia | ].
  pose proof (sscanf_alarm_unstored line block Hn) as Hw.
  destruct (sscanf_alarm line block) as [[n a] written].
  unfold conversions, bytes_written, stored in *. simpl in Hn, Hw. subst written.
  simpl. destruct (Z.ltb_spec n 2); [reflexivity | lia].
Qed.


(** When the call writes more than the array holds the pass ends in
    [Overrun], whatever the mutex calls would have returned. *)
Lemma main_iter_scanned_overrun env q line block a written :
  fgets_result env = Some line -> malloc_result env = Some block ->
  sscanf_alarm line block = (2, a, written) ->
  (MESSAGE_SIZE < written)%nat ->
  main_iter env q = Overrun written.
Proof.
  intros Hl Hm Hsc Hover. unfold main_iter. rewrite Hl, Hm.
  destruct (sscanf_alarm_2_strlen _ _ _ _ Hsc) as [Hlen _].
  destruct (Nat.leb_spec (Scanf.strlen line) 1); [lia | ].
  rewrite Hsc.
  destruct (Nat.ltb_spec MESSAGE_SIZE written); [reflexivity | lia].
Qed.

(** C5: the main thread does not look at what [pthread_mutex_unlock]
    returns.  With a well-formed line and an unlock that fails with code 1
    the pass goes on as if nothing had happened; the outcome of a pass of
    [main] never depends on that status, while the alarm thread aborts on
    the same failure. *)
Theorem main_iter_ignores_unlock_status :
  main_iter (mk_main_env (Some ("5 hello" ++ newline)%string) (Some blank) 0 0 100 1) []
    = Running ([mk_alarm 5 105 "hello"], [prompt]) /\
  (forall line block err lock now st st' q,
     main_iter (mk_main_env line block err lock now st) q
       = main_iter (mk_main_env line block err lock now st') q) /\
  alarm_thread_iter (mk_thread_env 0 100 1) (mk_locals 0 0) []
    = Aborted 1 "unlock mutex".
Proof.
  split; [reflexivity | split; [ | reflexivity]].
  intros line block err lock now st st' q. reflexivity.
Qed.

Lemma no_op_not_reported env q : is_no_op env q -> ~ reports_bad_command env q.
Proof.
  unfold is_no_op, reports_bad_command. intros H (events & He & Hin).
  rewrite H in He. inversion He; subst.
  destruct Hin as [Hp | []]. discriminate Hp.
Qed.

(** C7, as amended: for every line of more than one character on which
    [sscanf] stores fewer than two conversions, "bad command" is written
    and the list is left as it was.  ([malloc_result env = Some block] says
    that the pass has got as far as the call.) *)
Theorem main_iter_reports_bad_command (env : main_env) (q : list alarm_t)
    (line : string) (block : alarm_t) :
  fgets_result env = Some line -> (1 < Scanf.strlen line)%nat ->
  malloc_result env = Some block ->
  conversions (sscanf_alarm line block) < 2 ->
  reports_bad_command env q.
Proof.
  intros Hl Hs Hm Hn. unfold reports_bad_command.
  rewrite (main_iter_not_scanned env q line block Hl Hs Hm Hn).
  eexists. split; [reflexivity | ]. right. left. reflexivity.
Qed.

Lemma main_iter_reports_bad_command_witness :
  reports_bad_command (env_line ("abc" ++ newline) 100) [mk_alarm 5 105 "five"].
Proof.
  apply (main_iter_reports_bad_command
           (env_line ("abc" ++ newline) 100) [mk_alarm 5 105 "five"]
           ("abc" ++ newline)%string blank).
  - reflexivity.
  - vm_compute. lia.
  - reflexivity.
  - vm_compute. reflexivity.
Defined.

(** C7, as stated, fails: the line "x", one character that is not white
    space and no newline (the last line of an input that does not end in
    one), does not parse as a delay and a message, and nothing is reported
    for it: the test on [strlen] drops it before [sscanf] is reached. *)
Lemma one_character_line_not_reported :
  Scanf.strlen "x" = 1%nat /\
  all_space (Scanf.cstr "x") = false /\
  conversions (sscanf_alarm "x" blank) < 2 /\
  main_iter (env_line "x" 100) [] = Running ([], [prompt]) /\
  ~ reports_bad_command (env_line "x" 100) [].
Proof.
  split; [reflexivity | ]. split; [reflexivity | ].
  split; [vm_compute; reflexivity | ]. split; [reflexivity | ].
  apply no_op_not_reported. reflexivity.
Qed.

(** C8: a message of more than 64 characters is not cut to fit the array.
    For a delay followed by seventy characters the call stores the first 64
    of them and a NUL after them, 65 bytes into the 64 of [message]: the
    NUL lands past the end of the array and of the allocated block, and the
    pass ends in [Overrun] where the claim has an entry with nothing beyond
    the bound. *)
Theorem main_iter_long_message_overrun :
  String.length seventy = 70%nat /\
  sscanf_alarm ("3 " ++ seventy ++ newline) blank
    = (2,
       mk_alarm 3 0 "0123456789012345678901234567890123456789012345678901234567890123",
       65%nat) /\
  (MESSAGE_SIZE < 65)%nat /\
  main_iter (env_line ("3 " ++ seventy ++ newline) 100) [] = Overrun 65.
Proof.
  split; [reflexivity | ]. split; [reflexivity | ].
  split; [unfold MESSAGE_SIZE; lia | reflexivity].
Qed.

(** C9, as amended: a line of at most one character (a bare newline) is a
    no-op: nothing is reported and the list is left as it was.  A longer
    line of white space only leaves the list as it was too, but is reported
    as a bad command once its entry has been allocated. *)
Theorem main_iter_blank_line (env : main_env) (q : list alarm_t) (line : string) :
  fgets_result env = Some line ->
  ((Scanf.strlen line <= 1)%nat ->
     is_no_op env q /\ ~ reports_bad_command env q) /\
  ((1 < Scanf.strlen line)%nat -> all_space (Scanf.cstr line) = true ->
     forall block, malloc_result env = Some block ->
       main_iter env q = Running (q, [prompt; bad_command; Free block])).
Proof.
  intros Hl. split.
  - intros Hs.
    assert (H : is_no_op env q) by (apply (main_iter_short env q line Hl Hs)).
    split; [exact H | apply no_op_not_reported; exact H].
  - intros Hs Hw block Hm.
    assert (Hsc : sscanf_alarm line block = (Scanf.EOF, block, 0%nat)).
    { unfold sscanf_alarm. rewrite (conv_d_all_space _ Hw). reflexivity. }
    rewrite (main_iter_not_scanned env q line block Hl Hs Hm).
    + rewrite Hsc. reflexivity.
    + rewrite Hsc. unfold conversions, Scanf.EOF. simpl. lia.
Qed.

Lemma main_iter_blank_line_witness :
  is_no_op (env_line newline 100) [mk_alarm 5 105 "five"] /\
  main_iter (env_line ("   " ++ newline) 100) [mk_alarm 5 105 "five"]
    = Running ([mk_alarm 5 105 "five"], [prompt; bad_command; Free blank]).
Proof.
  split.
  - apply (main_iter_blank_line (env_line newline 100) [mk_alarm 5 105 "five"]
             newline eq_refl).
    vm_compute. lia.
  - apply (main_iter_blank_line (env_line ("   " ++ newline) 100)
             [mk_alarm 5 105 "five"] ("   " ++ newline)%string eq_refl).
    + vm_compute. lia.
    + reflexivity.
    + reflexivity.
Defined.

(** C9, as stated, fails: a line of three spaces and a newline is white
    space only, yet it is reported as a bad command. *)
Lemma spaces_line_reported :
  all_space (Scanf.cstr ("   " ++ newline)) = true /\
  reports_bad_command (env_line ("   " ++ newline) 100) [] /\
  ~ is_no_op (env_line ("   " ++ newline) 100) [].
Proof.
  split; [reflexivity | split].
  - exists [prompt; bad_command; Free blank].
    split; [reflexivity | right; left; reflexivity].
  - unfold is_no_op. vm_compute. discriminate.
Qed.

(** * Further properties of the two loops *)

(** ** One pass of either loop, seen from the list *)

Lemma freed_app l1 l2 : freed (l1 ++ l2) = freed l1 ++ freed l2.
Proof.
  induction l1 as [| e l1 IH]; simpl; [reflexivity | ].
  destruct e; simpl; rewrite IH; reflexivity.
Qed.

Lemma slept_app l1 l2 : slept (l1 ++ l2) = slept l1 ++ slept l2.
Proof.
  induction l1 as [| e l1 IH]; simpl; [reflexivity | ].
  destruct e; simpl; rewrite IH; reflexivity.
Qed.

(** A pass of [main] that goes on either leaves the list alone or links
    one alarm into it, the same alarm whatever the list holds. *)
Lemma main_iter_list env q q' ev :
  main_iter env q = Running (q', ev) ->
  (q' = q /\ inserted_by env = []) \/
  (exists a, q' = insert_alarm a q /\ inserted_by env = [a] /\ ev = [prompt]).
Proof.
  unfold inserted_by, main_iter.
  destruct (fgets_result env) as [line | ]; [ | discriminate].
  destruct (Scanf.strlen line <=? 1)%nat.
  { intros H. inversion H; subst. left. split; reflexivity. }
  destruct (malloc_result env) as [block | ]; [ | discriminate].
  destruct (sscanf_alarm line block) as [[n a] written].
  destruct (MESSAGE_SIZE <? written)%nat; [discriminate | ].
  destruct (n <? 2).
  { intros H. inversion H; subst. left. split; reflexivity. }
  unfold check_status. destruct (m_lock_status env =? 0); simpl; [ | discriminate].
  intros H. inversion H; subst. right. eexists. repeat split.
Qed.

Lemma alarm_thread_iter_mutex_ok env loc q :
  mutex_ok env ->
  alarm_thread_iter env loc q =
    Running (snd (fst (take_head (t_clock env) loc q)),
             snd (take_head (t_clock env) loc q),
             wait_events (snd (fst (take_head (t_clock env) loc q)))
               ++ fire_events (fst (fst (take_head (t_clock env) loc q)))).
Proof.
  intros [Hl Hu]. unfold alarm_thread_iter. rewrite Hl, Hu. simpl.
  destruct (take_head (t_clock env) loc q) as [[alarm loc'] q']. reflexivity.
Qed.

Lemma alarm_thread_iter_running env loc q r :
  alarm_thread_iter env loc q = Running r -> mutex_ok env.
Proof.
  unfold alarm_thread_iter, mutex_ok, check_status.
  destruct (Z.eqb_spec (t_lock_status env) 0) as [Hl | Hl]; simpl; [ | discriminate].
  destruct (take_head (t_clock env) loc q) as [[alarm loc'] q'].
  destruct (Z.eqb_spec (t_unlock_status env) 0) as [Hu | Hu]; simpl; [ | discriminate].
  intros _. split; assumption.
Qed.

Lemma freed_wait_events loc : freed (wait_events loc) = [].
Proof. unfold wait_events. destruct (sleep_time loc >? 0); reflexivity. Qed.

(** A pass of the thread that goes on frees the head of the list, if there
    is one, and nothing else. *)
Lemma alarm_thread_iter_list env loc q loc' q' ev :
  alarm_thread_iter env loc q = Running (loc', q', ev) ->
  q = freed ev ++ q' /\ (List.length (freed ev) <= 1)%nat /\
  (q = [] \/ exists a, q = a :: q' /\ freed ev = [a]).
Proof.
  intros H. pose proof (alarm_thread_iter_running _ _ _ _ H) as Hok.
  rewrite (alarm_thread_iter_mutex_ok env loc q Hok) in H.
  inversion H; subst; clear H. rewrite freed_app, freed_wait_events.
  destruct q as [| a rest]; simpl.
  - repeat split; [lia | left; reflexivity].
  - repeat split; [lia | right; exists a; split; reflexivity].
Qed.

Lemma sorted_tail a rest : sorted_by_time (a :: rest) -> sorted_by_time rest.
Proof. intros H. inversion H; assumption. Qed.

Lemma run_pass_sorted p st st' :
  run_pass p st = Running st' ->
  sorted_by_time (st_list st) -> sorted_by_time (st_list st').
Proof.
  destruct p as [env | env]; simpl.
  - destruct (main_iter env (st_list st)) as [[q ev] | | | ] eqn:Hm; simpl;
      [ | discriminate | discriminate | discriminate].
    intros H Hs. inversion H; subst; simpl.
    destruct (main_iter_list _ _ _ _ Hm) as [[-> _] | (a & -> & _)];
      [exact Hs | apply insert_alarm_sorted; exact Hs].
  - destruct (alarm_thread_iter env (st_locals st) (st_list st))
      as [[[loc q] ev] | | | ] eqn:Ht; simpl; [ | discriminate | discriminate | discriminate].
    intros H Hs. inversion H; subst; simpl.
    destruct (alarm_thread_iter_list _ _ _ _ _ _ Ht) as (_ & _ & [Hq | (a & Hq & _)]).
    + destruct (alarm_thread_iter_list _ _ _ _ _ _ Ht) as (Hq' & _).
      rewrite Hq in Hq'. symmetry in Hq'. apply app_eq_nil in Hq'.
      destruct Hq' as [_ ->]. constructor.
    + rewrite Hq in Hs. apply (sorted_tail a). exact Hs.
Qed.

Lemma run_passes_sorted ps : forall st st',
  run_passes ps st = Running st' ->
  sorted_by_time (st_list st) -> sorted_by_time (st_list st').
Proof.
  induction ps as [| p ps IH]; intros st st'; simpl.
  - intros H Hs. inversion H; subst. exact Hs.
  - destruct (run_pass p st) as [st1 | | | ] eqn:Hp; simpl; [ | discriminate | discriminate | discriminate].
    intros H Hs. apply (IH st1 st' H). apply (run_pass_sorted p st st1 Hp Hs).
Qed.

Lemma program_running create loc0 ps st :
  program create loc0 ps = Running st ->
  create = 0 /\ run_passes ps (mk_state loc0 [] [] []) = Running st.
Proof.
  unfold program, check_status.
  destruct (Z.eqb_spec create 0) as [-> | Hc]; simpl; [ | discriminate].
  intros H. split; [reflexivity | exact H].
Qed.

(** X1: however the passes of the two loops follow one another, and
    whatever lines, clock readings and locals they meet, the shared list is
    sorted by time after every pass. *)
Theorem program_list_sorted (create : Z) (loc0 : thread_locals)
    (ps : list pass) (st : program_state) :
  program create loc0 ps = Running st -> sorted_by_time (st_list st).
Proof.
  intros H. destruct (program_running _ _ _ _ H) as [_ Hr].
  apply (run_passes_sorted ps _ st Hr). constructor.
Qed.

Lemma run_pass_conserves p st st' :
  run_pass p st = Running st' ->
  Permutation (freed (thread_log st') ++ st_list st')
              (freed (thread_log st) ++ st_list st ++ submitted [p]).
Proof.
  unfold submitted. destruct p as [env | env]; simpl; rewrite app_nil_r.
  - destruct (main_iter env (st_list st)) as [[q ev] | | | ] eqn:Hm; simpl;
      [ | discriminate | discriminate | discriminate].
    intros H. inversion H; subst; simpl. apply Permutation_app_head.
    destruct (main_iter_list _ _ _ _ Hm) as [[-> ->] | (a & -> & -> & _)].
    + rewrite app_nil_r. apply Permutation_refl.
    + eapply perm_trans; [apply Permutation_sym, insert_alarm_perm | ].
      apply Permutation_cons_append.
  - destruct (alarm_thread_iter env (st_locals st) (st_list st))
      as [[[loc q] ev] | | | ] eqn:Ht; simpl; [ | discriminate | discriminate | discriminate].
    intros H. inversion H; subst; simpl.
    destruct (alarm_thread_iter_list _ _ _ _ _ _ Ht) as (Hq & _).
    rewrite freed_app, <- app_assoc, <- Hq. apply Permutation_refl.
Qed.

Lemma submitted_cons p ps : submitted (p :: ps) = submitted [p] ++ submitted ps.
Proof. unfold submitted. simpl. rewrite app_nil_r. reflexivity. Qed.

Lemma run_passes_conserves ps : forall st st',
  run_passes ps st = Running st' ->
  Permutation (freed (thread_log st') ++ st_list st')
              (freed (thread_log st) ++ st_list st ++ submitted ps).
Proof.
  induction ps as [| p ps IH]; intros st st' H; simpl in H.
  - inversion H; subst. unfold submitted. simpl. rewrite app_nil_r.
    apply Permutation_refl.
  - destruct (run_pass p st) as [st1 | | | ] eqn:Hp; simpl in H;
      [ | discriminate | discriminate | discriminate].
    eapply perm_trans; [apply (IH st1 st' H) | ].
    rewrite submitted_cons. rewrite !app_assoc.
    apply Permutation_app_tail. rewrite <- app_assoc.
    apply (run_pass_conserves p st st1 Hp).
Qed.

(** X2: no alarm is lost and none is duplicated.  At any point of any
    interleaving, the alarms the thread has freed together with those
    still on the list are exactly the alarms the passes of [main] have
    linked in, each as often as it was submitted. *)
Theorem program_conserves_alarms (create : Z) (loc0 : thread_locals)
    (ps : list pass) (st : program_state) :
  program create loc0 ps = Running st ->
  Permutation (freed (thread_log st) ++ st_list st) (submitted ps).
Proof.
  intros H. destruct (program_running _ _ _ _ H) as [_ Hr].
  apply (run_passes_conserves ps _ st Hr).
Qed.

Lemma program_list_sorted_witness :
  exists st,
    program 0 (mk_locals 0 0) example_passes = Running st /\
    st_list st = [mk_alarm 5 105 "five"] /\
    sorted_by_time (st_list st).
Proof.
  eexists. split; [reflexivity | ]. split; [reflexivity | ].
  apply (program_list_sorted 0 (mk_locals 0 0) example_passes). reflexivity.
Defined.

Lemma program_conserves_alarms_witness :
  exists st,
    program 0 (mk_locals 0 0) example_passes = Running st /\
    freed (thread_log st) = [mk_alarm 2 102 "two"] /\
    st_list st = [mk_alarm 5 105 "five"] /\
    submitted example_passes = [mk_alarm 5 105 "five"; mk_alarm 2 102 "two"] /\
    Permutation (freed (thread_log st) ++ st_list st) (submitted example_passes).
Proof.
  eexists. split; [reflexivity | ]. repeat (split; [reflexivity | ]).
  apply (program_conserves_alarms 0 (mk_locals 0 0) example_passes). reflexivity.
Defined.

(** ** The alarm thread on its own *)

Lemma hdrel_firstn a k : forall l,
  HdRel by_time a l -> HdRel by_time a (firstn k l).
Proof.
  intros l H. destruct k as [| k]; [constructor | ].
  destruct l as [| b l]; [constructor | ].
  simpl. constructor. inversion H; assumption.
Qed.

Lemma sorted_firstn k : forall l,
  sorted_by_time l -> sorted_by_time (firstn k l).
Proof.
  unfold sorted_by_time.
  induction k as [| k IH]; intros l Hs; [constructor | ].
  destruct l as [| a l]; [constructor | ].
  inversion Hs as [| ? ? Hs' Hhd]; subst. simpl.
  constructor; [apply IH; exact Hs' | apply hdrel_firstn; exact Hhd].
Qed.

(** X3: with the mutex calls succeeding, [k] passes of the thread free the
    first [k] alarms of the list, in list order and each once, and leave
    the rest as the list; on a list sorted by time they are freed in order
    of time. *)
Theorem alarm_thread_run_drains (envs : list thread_env) :
  forall (loc : thread_locals) (q : list alarm_t),
  Forall mutex_ok envs ->
  exists loc' ev,
    alarm_thread_run envs loc q
      = Running (loc', skipn (List.length envs) q, ev) /\
    freed ev = firstn (List.length envs) q /\
    (sorted_by_time q -> sorted_by_time (freed ev)).
Proof.
  induction envs as [| env envs IH]; intros loc q Hok.
  - exists loc, []. simpl. repeat split. constructor.
  - inversion Hok as [| ? ? Henv Hrest]; subst.
    simpl. rewrite (alarm_thread_iter_mutex_ok env loc q Henv). simpl.
    destruct q as [| a rest].
    + destruct (IH (mk_locals (sleep_time loc) 1) [] Hrest) as (loc' & ev & Hr & Hf & _).
      rewrite skipn_nil in Hr. rewrite firstn_nil in Hf.
      simpl. rewrite Hr. simpl. eexists; eexists. split; [reflexivity | ].
      rewrite freed_app, freed_app, freed_wait_events, Hf. simpl.
      split; [reflexivity | constructor].
    + rewrite take_head_cons. simpl.
      match goal with
      | |- context [alarm_thread_run envs ?l rest] =>
          destruct (IH l rest Hrest) as (loc' & ev & Hr & Hf & _)
      end.
      rewrite Hr. simpl. eexists; eexists. split; [reflexivity | ].
      rewrite freed_app, freed_app, freed_wait_events, Hf. simpl.
      split; [reflexivity | ].
      intros Hs. apply (sorted_firstn (S (List.length envs)) (a :: rest) Hs).
Qed.

Lemma alarm_thread_run_drains_witness :
  exists loc' ev,
    alarm_thread_run [env_ok 100; env_ok 100] (mk_locals 0 0)
        [mk_alarm 2 102 "two"; mk_alarm 5 105 "five"; mk_alarm 9 109 "nine"]
      = Running (loc', [mk_alarm 9 109 "nine"], ev) /\
    freed ev = [mk_alarm 2 102 "two"; mk_alarm 5 105 "five"].
Proof.
  assert (Hok : Forall mutex_ok [env_ok 100; env_ok 100])
    by (repeat constructor).
  destruct (alarm_thread_run_drains [env_ok 100; env_ok 100] (mk_locals 0 0)
              [mk_alarm 2 102 "two"; mk_alarm 5 105 "five"; mk_alarm 9 109 "nine"]
              Hok) as (loc' & ev & Hr & Hf & _).
  exists loc', ev. split; [exact Hr | exact Hf].
Defined.

Lemma take_head_sleep_nonpos clock loc q :
  sleep_time loc <= 0 ->
  (forall a, In a q -> CInt.INT_MIN <= clock - time a) ->
  sleep_time (snd (fst (take_head clock loc q))) <= 0.
Proof.
  intros Hl Hq. destruct q as [| a rest]; simpl; [exact Hl | ].
  destruct (Z.leb_spec (time a) clock) as [Hdue | Hnot]; [lia | ].
  pose proof (Hq a (or_introl eq_refl)) as Hr.
  rewrite to_time_t_id, to_int_id;
    unfold CInt.INT_MIN, CInt.INT_MAX, CInt.LONG_MIN, CInt.LONG_MAX in *; lia.
Qed.

Lemma slept_wait_events loc : sleep_time loc <= 0 -> slept (wait_events loc) = [].
Proof.
  intros H. unfold wait_events.
  destruct (Z.gtb_spec (sleep_time loc) 0); [lia | reflexivity].
Qed.

Lemma slept_fire_events alarm : slept (fire_events alarm) = [].
Proof. destruct alarm; reflexivity. Qed.

Lemma take_head_incl clock loc q a :
  In a (snd (take_head clock loc q)) -> In a q.
Proof. destruct q as [| b rest]; simpl; [tauto | intros H; right; exact H]. Qed.

(** A pass of the thread that starts with [sleep_time] at or below 0, on a
    list whose entries lie less than 2^31 seconds ahead of the clock, does
    not call [sleep] and ends with [sleep_time] at or below 0. *)
Lemma alarm_thread_iter_no_sleep env loc q loc' q' ev :
  alarm_thread_iter env loc q = Running (loc', q', ev) ->
  sleep_time loc <= 0 ->
  (forall a, In a q -> CInt.INT_MIN <= t_clock env - time a) ->
  slept ev = [] /\ sleep_time loc' <= 0.
Proof.
  intros H Hl Hq. pose proof (alarm_thread_iter_running _ _ _ _ H) as Hok.
  rewrite (alarm_thread_iter_mutex_ok env loc q Hok) in H.
  inversion H; subst; clear H.
  pose proof (take_head_sleep_nonpos (t_clock env) loc q Hl Hq) as Hn.
  rewrite slept_app, slept_fire_events, (slept_wait_events _ Hn).
  split; [reflexivity | exact Hn].
Qed.

(** X4: the time to wait for a head that is not yet due is computed as
    [now - alarm->time], which is negative, and the empty-list branch does
    not set [sleep_time].  So once [sleep_time] is at or below 0 the thread
    never calls [sleep] again, whatever the list holds (entries less than
    2^31 seconds ahead of the clock): every pass yields, and an alarm it
    takes is printed and freed in the same pass. *)
Theorem alarm_thread_never_sleeps (envs : list thread_env) :
  forall (loc : thread_locals) (q : list alarm_t)
         (loc' : thread_locals) (q' : list alarm_t) (ev : list event),
  alarm_thread_run envs loc q = Running (loc', q', ev) ->
  sleep_time loc <= 0 ->
  (forall env a, In env envs -> In a q -> CInt.INT_MIN <= t_clock env - time a) ->
  slept ev = [] /\ sleep_time loc' <= 0.
Proof.
  induction envs as [| env envs IH]; intros loc q loc' q' ev H Hl Hq; simpl in H.
  - inversion H; subst. split; [reflexivity | exact Hl].
  - destruct (alarm_thread_iter env loc q) as [[[loc1 q1] ev1] | | | ] eqn:H1;
      simpl in H; [ | discriminate | discriminate | discriminate].
    destruct (alarm_thread_run envs loc1 q1) as [[[loc2 q2] ev2] | | | ] eqn:H2;
      simpl in H; [ | discriminate | discriminate | discriminate].
    inversion H; subst; clear H.
    destruct (alarm_thread_iter_no_sleep _ _ _ _ _ _ H1 Hl) as [Hs1 Hl1].
    { intros a Ha. apply Hq; [left; reflexivity | exact Ha]. }
    destruct (IH _ _ _ _ _ H2 Hl1) as [Hs2 Hl2].
    { intros env' a Henv Ha. apply Hq; [right; exact Henv | ].
      destruct (alarm_thread_iter_list _ _ _ _ _ _ H1) as (Hq1 & _).
      rewrite Hq1. apply in_or_app. right. exact Ha. }
    rewrite slept_app, Hs1, Hs2. split; [reflexivity | exact Hl2].
Qed.

Lemma alarm_thread_never_sleeps_witness :
  exists loc' q' ev,
    alarm_thread_run [env_ok 100; env_ok 101; env_ok 102] (mk_locals 0 0)
        [mk_alarm 50 150 "later"; mk_alarm 90 190 "much later"]
      = Running (loc', q', ev) /\
    slept ev = [] /\ sleep_time loc' <= 0.
Proof.
  eexists; eexists; eexists. split; [reflexivity | ].
  eapply (alarm_thread_never_sleeps [env_ok 100; env_ok 101; env_ok 102]
            (mk_locals 0 0)
            [mk_alarm 50 150 "later"; mk_alarm 90 190 "much later"]).
  - reflexivity.
  - simpl. lia.
  - intros env a Henv Ha. simpl in Henv, Ha.
    destruct Henv as [<- | [<- | [<- | []]]];
      destruct Ha as [<- | [<- | []]]; vm_compute; discriminate.
Defined.

(** ** What [sscanf] makes of a line *)

Lemma str_all_impl (P Q : ascii -> Prop) s :
  (forall c, P c -> Q c) -> str_all P s -> str_all Q s.
Proof.
  intros HPQ. induction s as [| c r IH]; simpl; [trivial | ].
  intros [Hc Hr]. split; [apply HPQ; exact Hc | apply IH; exact Hr].
Qed.


Lemma str_all_skip_space P s : str_all P s -> str_all P (Scanf.skip_space s).
Proof.
  induction s as [| c r IH]; simpl; [trivial | ].
  intros [Hc Hr]. destruct (Scanf.isspace c); [apply IH; exact Hr | split; assumption].
Qed.

Lemma str_all_scan_digits P s : forall acc,
  str_all P s -> str_all P (snd (Scanf.scan_digits acc s)).
Proof.
  induction s as [| c r IH]; intros acc; simpl; [trivial | ].
  intros [Hc Hr]. destruct (Scanf.isdigit c); [apply IH; exact Hr | split; assumption].
Qed.

Lemma conv_d_str_all P s n rest :
  Scanf.conv_d s = Scanf.Converted n rest -> str_all P s -> str_all P rest.
Proof.
  unfold Scanf.conv_d. intros H Hs.
  pose proof (str_all_skip_space P s Hs) as Hk.
  destruct (Scanf.skip_space s) as [| c r]; [discriminate | ].
  destruct Hk as [Hc Hr].
  set (sb := if Scanf.code c =? 45 then (true, r)
             else if Scanf.code c =? 43 then (false, r)
             else (false, String c r)) in H.
  assert (Hb : str_all P (snd sb)).
  { subst sb. destruct (Scanf.code c =? 45); [exact Hr | ].
    destruct (Scanf.code c =? 43); [exact Hr | split; assumption]. }
  destruct sb as [negative body]. simpl in Hb.
  destruct (Scanf.starts_with_digit body); [ | discriminate].
  pose proof (str_all_scan_digits P body 0 Hb) as Hd.
  destruct (Scanf.scan_digits 0 body) as [v rest']. simpl in Hd.
  inversion H; subst. exact Hd.
Qed.

Lemma str_all_up_to_newline P s : str_all P s -> str_all P (up_to_newline s).
Proof.
  induction s as [| c r IH]; simpl; [trivial | ].
  intros [Hc Hr]. destruct (Scanf.is_newline c); simpl; [trivial | ].
  split; [exact Hc | apply IH; exact Hr].
Qed.

Lemma up_to_newline_no_newline s : str_all not_newline (up_to_newline s).
Proof.
  induction s as [| c r IH]; simpl; [trivial | ].
  destruct (Scanf.is_newline c) eqn:Hc; simpl; [trivial | ].
  split; [exact Hc | exact IH].
Qed.

Lemma str_all_substring P w : forall s,
  str_all P s -> str_all P (substring 0 w s).
Proof.
  induction w as [| w IH]; intros [| c r]; simpl; trivial.
  intros [Hc Hr]. split; [exact Hc | apply IH; exact Hr].
Qed.

Lemma cstr_not_nul s : str_all not_nul (Scanf.cstr s).
Proof.
  induction s as [| c r IH]; simpl; [trivial | ].
  destruct (Scanf.is_nul c) eqn:Hc; simpl; [trivial | ].
  split; [exact Hc | exact IH].
Qed.


Lemma substring_0_length w : forall s,
  String.length (substring 0 w s) = Nat.min w (String.length s).
Proof.
  induction w as [| w IH]; intros [| c r]; simpl; try reflexivity.
  rewrite IH. reflexivity.
Qed.


Lemma skip_space_not_space s : starts_with_space (Scanf.skip_space s) = false.
Proof.
  induction s as [| c r IH]; simpl; [reflexivity | ].
  destruct (Scanf.isspace c) eqn:Hc; [exact IH | simpl; exact Hc].
Qed.

Lemma space_not_newline_free c : Scanf.is_newline c = true -> Scanf.isspace c = true.
Proof.
  unfold Scanf.is_newline, Scanf.isspace. intros H. apply Z.eqb_eq in H.
  rewrite H. reflexivity.
Qed.

(** After white space has been skipped the next character is not a
    newline, so the text up to the newline is empty only at the end of the
    string. *)
Lemma skip_space_text s :
  Scanf.skip_space s <> EmptyString ->
  (0 < String.length (up_to_newline (Scanf.skip_space s)))%nat.
Proof.
  pose proof (skip_space_not_space s) as H.
  destruct (Scanf.skip_space s) as [| c r]; [congruence | ].
  intros _. simpl in *.
  destruct (Scanf.is_newline c) eqn:Hc; [ | simpl; lia].
  rewrite (space_not_newline_free c Hc) in H. discriminate.
Qed.

(** The three ways the call can end, by what the two conversions find. *)
Lemma sscanf_alarm_cases line block :
  (sscanf_alarm line block = (Scanf.EOF, block, 0%nat) /\
   Scanf.conv_d (Scanf.cstr line) = Scanf.Input_failure) \/
  (sscanf_alarm line block = (0, block, 0%nat) /\
   Scanf.conv_d (Scanf.cstr line) = Scanf.Match_failure) \/
  (exists n rest,
     Scanf.conv_d (Scanf.cstr line) = Scanf.Converted n rest /\
     ((Scanf.skip_space rest = EmptyString /\
       sscanf_alarm line block = (1, set_seconds n block, 0%nat)) \/
      (Scanf.skip_space rest <> EmptyString /\
       sscanf_alarm line block
         = (2,
            mk_alarm n (time block)
              (substring 0 64 (up_to_newline (Scanf.skip_space rest))),
            S (String.length
                 (substring 0 64 (up_to_newline (Scanf.skip_space rest)))))))).
Proof.
  unfold sscanf_alarm.
  destruct (Scanf.conv_d (Scanf.cstr line)) as [n rest | | ];
    [ | right; left; split; reflexivity | left; split; reflexivity].
  right; right. exists n, rest. split; [reflexivity | ].
  destruct (Scanf.skip_space rest) as [| c r] eqn:Hs.
  - left. split; reflexivity.
  - right. split; [discriminate | ].
    assert (Hne : Scanf.skip_space rest <> EmptyString) by (rewrite Hs; discriminate).
    pose proof (skip_space_text rest Hne) as Hlen. rewrite Hs in Hlen.
    destruct (conv_not_newline_text 64 (String c r) Hlen) as [rest' ->].
    reflexivity.
Qed.

(** X5: whenever the call stores both conversions, the delay is a value of
    type [int], the [time] field is left as it was, and the message holds
    between 1 and 64 characters, none of them a newline or a NUL, the first
    of them not white space; the call writes these characters and one byte
    more, the NUL. *)
Theorem sscanf_alarm_stored (line : string) (block a : alarm_t) (written : nat) :
  sscanf_alarm line block = (2, a, written) ->
  CInt.INT_MIN <= seconds a <= CInt.INT_MAX /\
  time a = time block /\
  (1 <= String.length (message a) <= 64)%nat /\
  str_all not_newline (message a) /\
  str_all not_nul (message a) /\
  starts_with_space (message a) = false /\
  written = S (String.length (message a)).
Proof.
  intros H.
  destruct (sscanf_alarm_cases line block)
    as [[E _] | [[E _] | (n & rest & Hd & [[_ E] | [Hne E]])]];
    rewrite E in H; try (unfold Scanf.EOF in H; discriminate H).
  inversion H; subst; clear H. simpl.
  pose proof (skip_space_text rest Hne) as Hlen.
  split; [apply (conv_d_converted _ _ _ Hd) | ].
  split; [reflexivity | ].
  split; [rewrite substring_0_length; lia | ].
  split; [apply str_all_substring, up_to_newline_no_newline | ].
  split.
  - apply str_all_substring, str_all_up_to_newline, str_all_skip_space.
    apply (conv_d_str_all not_nul _ _ _ Hd), cstr_not_nul.
  - split; [ | reflexivity].
    pose proof (skip_space_not_space rest) as Hsp.
    destruct (Scanf.skip_space rest) as [| c r]; [congruence | ].
    simpl in *. destruct (Scanf.is_newline c); [simpl in Hlen; lia | ].
    simpl. exact Hsp.
Qed.

Lemma sscanf_alarm_stored_witness :
  (1 <= String.length
          (message (stored (sscanf_alarm ("3   " ++ seventy ++ newline) blank)))
     <= 64)%nat.
Proof.
  apply (sscanf_alarm_stored ("3   " ++ seventy ++ newline) blank
           (stored (sscanf_alarm ("3   " ++ seventy ++ newline) blank))
           (bytes_written (sscanf_alarm ("3   " ++ seventy ++ newline) blank))).
  vm_compute. reflexivity.
Defined.






Lemma isspace_not_nul c : Scanf.isspace c = true -> not_nul c.
Proof.
  unfold Scanf.isspace, not_nul, Scanf.is_nul. intros H.
  apply orb_true_iff in H. apply Z.eqb_neq.
  destruct H as [H | H].
  - apply Z.eqb_eq in H. lia.
  - apply andb_true_iff in H. destruct H as [H _]. apply Z.leb_le in H. lia.
Qed.

Lemma all_space_not_nul s : all_space s = true -> str_all not_nul s.
Proof.
  induction s as [| c r IH]; simpl; [trivial | ].
  intros H. apply andb_true_iff in H. destruct H as [Hc Hr].
  split; [apply isspace_not_nul; exact Hc | apply IH; exact Hr].
Qed.

Lemma skip_space_app ws s :
  all_space ws = true -> Scanf.skip_space (ws ++ s) = Scanf.skip_space s.
Proof.
  induction ws as [| c r IH]; simpl; [reflexivity | ].
  intros H. apply andb_true_iff in H. destruct H as [Hc Hr].
  rewrite Hc. apply IH. exact Hr.
Qed.


Lemma cstr_app s t :
  str_all not_nul s -> Scanf.cstr (s ++ t) = (s ++ Scanf.cstr t)%string.
Proof.
  induction s as [| c r IH]; simpl; [reflexivity | ].
  intros [Hc Hr]. unfold not_nul in Hc. rewrite Hc, (IH Hr). reflexivity.
Qed.






(** X7: a line of more than one character whose first character after any
    white space is neither a digit nor a sign followed by a digit is
    rejected: "bad command" is written, the untouched block is freed, and
    the list is as it was. *)
Theorem main_iter_rejects_no_number (env : main_env) (q : list alarm_t)
    (line : string) (block : alarm_t) (c : ascii) (r : string) :
  fgets_result env = Some line -> (1 < Scanf.strlen line)%nat ->
  malloc_result env = Some block ->
  Scanf.skip_space (Scanf.cstr line) = String c r ->
  Scanf.isdigit c = false ->
  (Scanf.code c = 45 \/ Scanf.code c = 43 -> Scanf.starts_with_digit r = false) ->
  main_iter env q = Running (q, [prompt; bad_command; Free block]).
Proof.
  intros Hl Hs Hm Hskip Hc Hsign.
  assert (Hconv : Scanf.conv_d (Scanf.cstr line) = Scanf.Match_failure).
  { unfold Scanf.conv_d. rewrite Hskip.
    destruct (Z.eqb_spec (Scanf.code c) 45) as [E | _].
    { rewrite (Hsign (or_introl E)). reflexivity. }
    destruct (Z.eqb_spec (Scanf.code c) 43) as [E | _].
    { rewrite (Hsign (or_intror E)). reflexivity. }
    simpl. rewrite Hc. reflexivity. }
  assert (Hsc : sscanf_alarm line block = (0, block, 0%nat)).
  { unfold sscanf_alarm. rewrite Hconv. reflexivity. }
  rewrite (main_iter_not_scanned env q line block Hl Hs Hm);
    rewrite Hsc; [reflexivity | unfold conversions; simpl; lia].
Qed.

Lemma main_iter_rejects_no_number_witness :
  main_iter (env_line ("  -x 5 five" ++ newline) 100) [mk_alarm 5 105 "five"]
    = Running ([mk_alarm 5 105 "five"], [prompt; bad_command; Free blank]).
Proof.
  apply (main_iter_rejects_no_number
           (env_line ("  -x 5 five" ++ newline) 100) [mk_alarm 5 105 "five"]
           ("  -x 5 five" ++ newline)%string blank "-" ("x 5 five" ++ newline)%string).
  - reflexivity.
  - vm_compute. lia.
  - reflexivity.
  - reflexivity.
  - reflexivity.
  - intros _. reflexivity.
Defined.

(** X8: a line that holds a delay and nothing but white space after it is
    rejected as well: the delay has been stored in the block by then, the
    block is freed, "bad command" is written and the list is as it was. *)
Theorem main_iter_rejects_no_message (env : main_env) (q : list alarm_t)
    (line : string) (block : alarm_t) (n : Z) (rest : string) :
  fgets_result env = Some line -> (1 < Scanf.strlen line)%nat ->
  malloc_result env = Some block ->
  Scanf.conv_d (Scanf.cstr line) = Scanf.Converted n rest ->
  all_space rest = true ->
  main_iter env q
    = Running (q, [prompt; bad_command; Free (set_seconds n block)]).
Proof.
  intros Hl Hs Hm Hconv Hrest.
  assert (Hsc : sscanf_alarm line block = (1, set_seconds n block, 0%nat)).
  { unfold sscanf_alarm. rewrite Hconv, (all_space_skip rest Hrest). reflexivity. }
  rewrite (main_iter_not_scanned env q line block Hl Hs Hm);
    rewrite Hsc; [reflexivity | unfold conversions; simpl; lia].
Qed.

Lemma main_iter_rejects_no_message_witness :
  main_iter (env_line ("15  " ++ newline) 100) [mk_alarm 5 105 "five"]
    = Running ([mk_alarm 5 105 "five"],
               [prompt; bad_command; Free (mk_alarm 15 0 "")]).
Proof.
  apply (main_iter_rejects_no_message
           (env_line ("15  " ++ newline) 100) [mk_alarm 5 105 "five"]
           ("15  " ++ newline)%string blank 15 ("  " ++ newline)%string).
  - reflexivity.
  - vm_compute. lia.
  - reflexivity.
  - vm_compute. reflexivity.
  - reflexivity.
Defined.

(** X9: white space in front of the delay is skipped: the call stores the
    same for a line and for that line with white space put before it. *)
Theorem sscanf_alarm_leading_space (ws line : string) (block : alarm_t) :
  all_space ws = true ->
  sscanf_alarm (ws ++ line) block = sscanf_alarm line block.
Proof.
  intros Hws. unfold sscanf_alarm, Scanf.conv_d.
  rewrite (cstr_app ws line (all_space_not_nul ws Hws)).
  rewrite (skip_space_app ws (Scanf.cstr line) Hws). reflexivity.
Qed.

Lemma sscanf_alarm_leading_space_witness :
  sscanf_alarm ("   " ++ "7 seven" ++ newline) blank
    = sscanf_alarm ("7 seven" ++ newline) blank.
Proof.
  apply (sscanf_alarm_leading_space "   " ("7 seven" ++ newline) blank).
  reflexivity.
Defined.

(** X10: the pass ends in [Overrun] exactly when the line holds a delay
    and, after the white space that follows it, 64 characters or more
    before the newline: the call then writes 64 of them and a NUL, 65
    bytes, into the 64 of [message], whatever the delay, the clock and the
    mutex. *)
Theorem main_iter_overrun (env : main_env) (q : list alarm_t) (written : nat) :
  main_iter env q = Overrun written <->
  written = 65%nat /\
  exists line block n rest,
    fgets_result env = Some line /\ malloc_result env = Some block /\
    Scanf.conv_d (Scanf.cstr line) = Scanf.Converted n rest /\
    (64 <= String.length (up_to_newline (Scanf.skip_space rest)))%nat.
Proof.
  split.
  - unfold main_iter.
    destruct (fgets_result env) as [line | ]; [ | discriminate].
    destruct (Scanf.strlen line <=? 1)%nat; [discriminate | ].
    destruct (malloc_result env) as [block | ]; [ | discriminate].
    destruct (sscanf_alarm_cases line block)
      as [[E _] | [[E _] | (n & rest & Hd & [[_ E] | [Hne E]])]];
      rewrite E; try (simpl; discriminate).
    cbv beta iota. rewrite substring_0_length.
    set (len := String.length (up_to_newline (Scanf.skip_space rest))).
    destruct (Nat.ltb_spec MESSAGE_SIZE (S (Nat.min 64 len))) as [Hover | Hfit].
    + intros H. assert (Hw : written = S (Nat.min 64 len)) by congruence.
      unfold MESSAGE_SIZE in Hover.
      split; [lia | ]. exists line, block, n, rest.
      repeat split; try assumption. fold len. lia.
    + destruct (2 <? 2); [discriminate | ].
      unfold check_status. destruct (m_lock_status env =? 0); discriminate.
  - intros (-> & line & block & n & rest & Hl & Hm & Hd & Hlen).
    destruct (sscanf_alarm_cases line block)
      as [[_ E] | [[_ E] | (n' & rest' & E & Hcase)]];
      rewrite Hd in E; try discriminate E.
    inversion E; subst n' rest'; clear E.
    destruct Hcase as [[Hempty _] | [_ Hsc]].
    { rewrite Hempty in Hlen. simpl in Hlen. lia. }
    rewrite substring_0_length, Nat.min_l in Hsc by exact Hlen.
    apply (main_iter_scanned_overrun env q line block _ 65 Hl Hm Hsc).
    unfold MESSAGE_SIZE. lia.
Qed.

Lemma main_iter_overrun_witness :
  main_iter (env_line ("-5 " ++ seventy ++ newline) 100) [mk_alarm 5 105 "five"]
    = Overrun 65.
Proof.
  apply (main_iter_overrun (env_line ("-5 " ++ seventy ++ newline) 100)
           [mk_alarm 5 105 "five"] 65).
  split; [reflexivity | ].
  exists ("-5 " ++ seventy ++ newline)%string, blank, (-5),
         (" " ++ seventy ++ newline)%string.
  split; [reflexivity | ]. split; [reflexivity | ].
  split; [vm_compute; reflexivity | vm_compute; lia].
Defined.

(** ** Submitting and taking *)

(** X11: when an alarm is linked into a list sorted by time, what the
    thread takes next is an earliest entry among the old ones and the new
    one, and what it leaves is the others, still sorted. *)
Theorem take_head_after_insert (clock : Z) (loc : thread_locals)
    (a : alarm_t) (q : list alarm_t) :
  sorted_by_time q ->
  exists h rest,
    fst (fst (take_head clock loc (insert_alarm a q))) = Some h /\
    snd (take_head clock loc (insert_alarm a q)) = rest /\
    by_time h a /\ Forall (by_time h) q /\
    Permutation (a :: q) (h :: rest) /\ sorted_by_time rest.
Proof.
  intros Hs.
  pose proof (insert_alarm_sorted a q Hs) as Hsi.
  pose proof (insert_alarm_perm a q) as Hp.
  destruct (insert_alarm a q) as [| h rest] eqn:Hi.
  { apply Permutation_sym, Permutation_nil in Hp. discriminate. }
  exists h, rest. rewrite take_head_cons. simpl.
  pose proof (sorted_head_earliest h rest Hsi) as Hall.
  assert (Hin : forall x, In x (a :: q) -> by_time h x).
  { intros x Hx. apply (Permutation_in _ Hp) in Hx.
    destruct Hx as [<- | Hx]; [unfold by_time; lia | ].
    rewrite Forall_forall in Hall. apply Hall. exact Hx. }
  repeat split.
  - apply Hin. left. reflexivity.
  - apply Forall_forall. intros x Hx. apply Hin. right. exact Hx.
  - exact Hp.
  - apply (sorted_tail h rest Hsi).
Qed.

Lemma take_head_after_insert_witness :
  exists h rest,
    fst (fst (take_head 100 (mk_locals 0 0)
                (insert_alarm (mk_alarm 2 102 "two") [mk_alarm 5 105 "five"])))
      = Some h /\
    snd (take_head 100 (mk_locals 0 0)
           (insert_alarm (mk_alarm 2 102 "two") [mk_alarm 5 105 "five"])) = rest /\
    by_time h (mk_alarm 2 102 "two") /\
    Forall (by_time h) [mk_alarm 5 105 "five"] /\
    Permutation (mk_alarm 2 102 "two" :: [mk_alarm 5 105 "five"]) (h :: rest) /\
    sorted_by_time rest.
Proof.
  apply (take_head_after_insert 100 (mk_locals 0 0)
           (mk_alarm 2 102 "two") [mk_alarm 5 105 "five"]).
  apply sortedb_spec. reflexivity.
Defined.

(** ** The thread within the program *)

(** An entry a pass of [main] links in carries the clock plus its delay as
    its time, the delay being a value of type [int]. *)
Lemma main_iter_inserted_time env q q' ev :
  main_iter env q = Running (q', ev) ->
  q' = q \/
  exists a, q' = insert_alarm a q /\
            time a = CInt.to_time_t (m_clock env + seconds a) /\
            CInt.INT_MIN <= seconds a <= CInt.INT_MAX.
Proof.
  unfold main_iter.
  destruct (fgets_result env) as [line | ]; [ | discriminate].
  destruct (Scanf.strlen line <=? 1)%nat.
  { intros H. inversion H; subst. left. reflexivity. }
  destruct (malloc_result env) as [block | ]; [ | discriminate].
  destruct (sscanf_alarm line block) as [[n a] written] eqn:Hsc.
  destruct (MESSAGE_SIZE <? written)%nat; [discriminate | ].
  destruct (Z.ltb_spec n 2) as [Hlt | Hge].
  { intros H. inversion H; subst. left. reflexivity. }
  pose proof (sscanf_alarm_2 line block) as H2. rewrite Hsc in H2.
  unfold conversions in H2. simpl in H2.
  assert (n = 2) by lia. subst n.
  destruct (sscanf_alarm_2_strlen _ _ _ _ Hsc) as (_ & Hrange & _).
  unfold check_status. destruct (m_lock_status env =? 0); simpl; [ | discriminate].
  intros H. inversion H; subst. right. eexists.
  split; [reflexivity | ]. split; [reflexivity | exact Hrange].
Qed.

Lemma insert_alarm_in a q x : In x (insert_alarm a q) -> x = a \/ In x q.
Proof.
  intros H. apply (Permutation_in _ (Permutation_sym (insert_alarm_perm a q))) in H.
  destruct H as [<- | H]; [left; reflexivity | right; exact H].
Qed.

Lemma run_passes_no_sleep ps : forall st st',
  run_passes ps st = Running st' ->
  clock_steady ps ->
  sleep_time (st_locals st) <= 0 ->
  slept (thread_log st) = [] ->
  (forall a p, In a (st_list st) -> In p ps ->
     CInt.INT_MIN <= pass_clock p - time a) ->
  slept (thread_log st') = [] /\ sleep_time (st_locals st') <= 0.
Proof.
  induction ps as [| p ps IH]; intros st st' H [Hsorted Hbound] Hl Hs Hq;
    simpl in H.
  - inversion H; subst. split; assumption.
  - destruct (run_pass p st) as [st1 | | | ] eqn:Hp; simpl in H;
      [ | discriminate | discriminate | discriminate].
    simpl in Hsorted. apply StronglySorted_inv in Hsorted.
    destruct Hsorted as [Hsorted Hlater].
    inversion Hbound as [| ? ? Hb Hbound']; subst.
    assert (Hsteady : clock_steady ps) by (split; assumption).
    destruct p as [env | env]; simpl in Hp, Hb, Hlater.
    + destruct (main_iter env (st_list st)) as [[q ev] | | | ] eqn:Hm; simpl in Hp;
        [ | discriminate | discriminate | discriminate].
      inversion Hp; subst st1; clear Hp.
      apply (IH _ st' H Hsteady); simpl; [exact Hl | exact Hs | ].
      intros a p Ha Hin.
      destruct (main_iter_inserted_time _ _ _ _ Hm) as [-> | (b & -> & Ht & Hr)].
      * apply Hq; [exact Ha | right; exact Hin].
      * destruct (insert_alarm_in _ _ _ Ha) as [-> | Ha'];
          [ | apply Hq; [exact Ha' | right; exact Hin]].
        rewrite Forall_forall in Hlater.
        pose proof (Hlater (pass_clock p) (in_map pass_clock ps p Hin)) as Hle.
        rewrite Ht, to_time_t_id;
          unfold CInt.INT_MIN, CInt.INT_MAX, CInt.LONG_MIN, CInt.LONG_MAX in *; lia.
    + destruct (alarm_thread_iter env (st_locals st) (st_list st))
        as [[[loc q] ev] | | | ] eqn:Ht; simpl in Hp; [ | discriminate | discriminate | discriminate].
      inversion Hp; subst st1; clear Hp.
      destruct (alarm_thread_iter_no_sleep _ _ _ _ _ _ Ht Hl) as [Hs1 Hl1].
      { intros a Ha. apply (Hq a (Thread_pass env) Ha). left. reflexivity. }
      apply (IH _ st' H Hsteady); simpl;
        [exact Hl1 | rewrite slept_app, Hs, Hs1; reflexivity | ].
      intros a p Ha Hin. apply Hq; [ | right; exact Hin].
      destruct (alarm_thread_iter_list _ _ _ _ _ _ Ht) as (Hq1 & _).
      rewrite Hq1. apply in_or_app. right. exact Ha.
Qed.

(** X12: in the running program, with a clock that does not run backwards
    and a thread whose [sleep_time] starts at or below 0, the alarm thread
    never calls [sleep], whatever is submitted and however the passes of
    the two loops follow one another: it polls the list by yielding only. *)
Theorem program_never_sleeps (create : Z) (loc0 : thread_locals)
    (ps : list pass) (st : program_state) :
  program create loc0 ps = Running st ->
  clock_steady ps ->
  sleep_time loc0 <= 0 ->
  slept (thread_log st) = [].
Proof.
  intros H Hsteady Hl. destruct (program_running _ _ _ _ H) as [_ Hr].
  apply (run_passes_no_sleep ps _ st Hr Hsteady); simpl;
    [exact Hl | reflexivity | ].
  intros a p [].
Qed.

Lemma program_never_sleeps_witness :
  exists st,
    program 0 (mk_locals 0 0) example_passes = Running st /\
    thread_log st = [Sched_yield; Printf []; Free (mk_alarm 2 102 "two")] /\
    slept (thread_log st) = [].
Proof.
  eexists. split; [reflexivity | ]. split; [reflexivity | ].
  apply (program_never_sleeps 0 (mk_locals 0 0) example_passes).
  - reflexivity.
  - split.
    + repeat constructor; vm_compute; discriminate.
    + repeat constructor; vm_compute; discriminate.
  - simpl. lia.
Defined.

(** ** A negative delay *)

Lemma firstn_length_app {A : Type} (pre post : list A) :
  firstn (List.length pre) (pre ++ post) = pre.
Proof.
  induction pre as [| x pre IH]; simpl; [reflexivity | ]. rewrite IH. reflexivity.
Qed.

Lemma skipn_length_app {A : Type} (pre post : list A) :
  skipn (List.length pre) (pre ++ post) = post.
Proof. induction pre as [| x pre IH]; simpl; [reflexivity | exact IH]. Qed.



